(** * Modified Akima interpolation: [boost/math/interpolators/makima.hpp]

    A shallow embedding of the class template [makima<RandomAccessContainer>]
    and the properties of its constructor and of its call operator.

    Modelling choices.
    - [Real] (the container's [value_type]) is instantiated twice.  With the
      exact rationals [Q], where comparisons are the boolean ones of
      [QArith] and [==] is [Qeq]: the statements proved there are those that
      hold of the formulas whatever the rounding, and the quotient by a zero
      divisor is the [0] of [Qdiv], so every statement about a quotient
      either proves its divisor nonzero or assumes it.  And, in the module
      [F64], with IEEE binary64 ([PrimFloat]), one rounded operation per
      operation of the source: the statements that rounding or a value that
      is not a number decides are settled there.
    - A container is a list; [operator[]] outside the bounds is undefined
      behaviour and is an outcome of its own, so that "in bounds" is a
      theorem and not an assumption.
    - [size_t] is a 64-bit unsigned integer: a [Z] with the wrap-around of
      its subtraction and increment written out.
    - A [throw] is an outcome carrying the exception. *)

From Stdlib Require Import ZArith QArith Qabs Qminmax Lqa Lia String Floats.
From stdpp Require Import base list.
From Equations Require Import Equations.

Open Scope Z_scope.

(** ** Outcomes of a C++ computation *)

Inductive exn : Type :=
  | domain_error (what : string).

Inductive outcome (A : Type) : Type :=
  | Ret (a : A)          (* normal completion *)
  | Throw (e : exn)      (* an exception leaves the function *)
  | Undefined            (* out-of-bounds access *)
  | OutOfFuel.           (* a loop of the model did not finish *)

Arguments Ret {A} a.
Arguments Throw {A} e.
Arguments Undefined {A}.
Arguments OutOfFuel {A}.

#[export] Instance outcome_ret : MRet outcome := fun A a => Ret a.

#[export] Instance outcome_bind : MBind outcome := fun A B k c =>
  match c with
  | Ret a => k a
  | Throw e => Throw e
  | Undefined => Undefined
  | OutOfFuel => OutOfFuel
  end.

(** ** [size_t] *)

Module size_t.
Definition modulus : Z := 2 ^ 64.
Definition wrap (z : Z) : Z := z mod modulus.
Definition add (a b : Z) : Z := wrap (a + b).
Definition sub (a b : Z) : Z := wrap (a - b).
End size_t.

(** ** Containers of [Real], that is of [Q] *)

#[export] Instance Q_inhabited : Inhabited Q := populate 0%Q.

Definition size (c : list Q) : Z := Z.of_nat (length c).

(** Every container the program can hold has fewer than [2^64] elements. *)
Definition representable (c : list Q) : Prop := size c < size_t.modulus.

(** [c[i]] *)
Definition index (c : list Q) (i : Z) : outcome Q :=
  if decide (0 <= i) then
    match c !! Z.to_nat i with
    | Some v => Ret v
    | None => Undefined
    end
  else Undefined.

(** [c[i] = v] *)
Definition store (c : list Q) (i : Z) (v : Q) : outcome (list Q) :=
  if decide (0 <= i < size c) then Ret (<[Z.to_nat i := v]> c) else Undefined.

(** [c.resize(n)]: the elements added are value-initialised, [Real()] is zero. *)
Definition resize (c : list Q) (n : Z) : list Q :=
  take (Z.to_nat n) c ++ replicate (Z.to_nat n - length c) 0%Q.

Definition Qltb (a b : Q) : bool := negb (Qle_bool b a).

(** ** Loops *)

(** [for (size_t i = i0; i < bound; ++i) body], threading the variables the
    body assigns as a state [s].  The fuel bounds the number of iterations. *)
Fixpoint for_loop {S : Type} (fuel : nat) (i bound : Z)
    (body : Z -> S -> outcome S) (s : S) : outcome S :=
  if decide (i < bound) then
    match fuel with
    | O => OutOfFuel
    | Datatypes.S fuel' =>
        s' ← body i s;
        for_loop fuel' (size_t.add i 1) bound body s'
    end
  else Ret s.

(** [std::upper_bound(c.begin(), c.end(), val)], as the standard library
    implements it: a bisection on the length of the remaining range, which
    returns the position of the first element greater than [val].  Iterators
    are positions in the container, [c.end()] is [size c]. *)
Equations? upper_bound_loop (c : list Q) (val : Q) (first len : Z) : outcome Z
  by wf (Z.to_nat len) lt :=
  upper_bound_loop c val first len with decide (0 < len) => {
    | right _ => Ret first
    | left _ with index c (first + Z.shiftr len 1) => {
        | Ret middle with Qltb val middle => {
            | true => upper_bound_loop c val first (Z.shiftr len 1)
            | false => upper_bound_loop c val (first + Z.shiftr len 1 + 1)
                         (len - Z.shiftr len 1 - 1) }
        | Throw e => Throw e
        | Undefined => Undefined
        | OutOfFuel => OutOfFuel } }.
Proof.
  all: rewrite Z.shiftr_div_pow2 by lia; change (2 ^ 1) with 2;
    pose proof (Z.div_lt_upper_bound len 2 len);
    pose proof (Z.div_pos len 2); lia.
Defined.

Definition upper_bound (c : list Q) (val : Q) : outcome Z :=
  upper_bound_loop c val 0 (size c).

(** ** The class *)

Record makima : Type := Build_makima {
  x_ : list Q;
  y_ : list Q;
  s_ : list Q
}.

Definition err_sizes : string :=
  "There must be the same number of ordinates as abscissas.".
Definition err_few : string :=
  "Must be at least two data points.".
Definition err_order : string :=
  "Abscissas must be listed in strictly increasing order x0 < x1 < ... < x_{n-1}".

(** *** Constructor *)

(** Body of the loop that checks the order of the abscissas; the state is the
    local [x0]. *)
Definition order_body (x : list Q) (i : Z) (x0 : Q) : outcome Q :=
  x1 ← index x i;
  if Qle_bool x1 x0 then Throw (domain_error err_order) else Ret x1.

(** [(y_[a]-y_[b])/(x_[a]-x_[b])] *)
Definition secant (x y : list Q) (a b : Z) : outcome Q :=
  ya ← index y a;
  yb ← index y b;
  xa ← index x a;
  xb ← index x b;
  Ret ((ya - yb) / (xa - xb))%Q.

Definition weighted_slope (mim2 mim1 mi mip1 : Q) : Q :=
  let numerator := (Qabs (mip1 - mi) * mim1 + Qabs (mim1 - mim2) * mi)%Q in
  let denominator := (Qabs (mip1 - mi) + Qabs (mim1 - mim2))%Q in
  (numerator / denominator)%Q.

(** Body of the loop that fills the slopes; the state is [s_]. *)
Definition slope_body (x y : list Q) (i : Z) (s : list Q) : outcome (list Q) :=
  mim2 ← secant x y (size_t.sub i 1) (size_t.sub i 2);
  mim1 ← secant x y i (size_t.sub i 1);
  mi ← secant x y (size_t.add i 1) i;
  mip1 ← secant x y (size_t.add i 2) (size_t.add i 1);
  store s i (weighted_slope mim2 mim1 mi mip1).

Definition makima_ctor (x y : list Q) : outcome makima :=
  if negb (size x =? size y) then Throw (domain_error err_sizes)
  else if size x <? 2 then Throw (domain_error err_few)
  else
    x0 ← index x 0;
    _ ← for_loop (Z.to_nat (size x)) 1 (size x) (order_body x) x0;
    let s := resize [] (size x) in
    (* the loop does not change the size of s_: its bound is read once *)
    let bound := size_t.sub (size s) 2 in
    s ← for_loop (Z.to_nat bound) 2 bound (slope_body x y) s;
    Ret (Build_makima x y s).

(** *** Call operator *)

(** The expression of lines 83-84. *)
Definition hermite_factored (y0 y1 s0 s1 dx t : Q) : Q :=
  ((1 - t) * (1 - t) * (y0 * (1 + 2 * t) + s0 * dx)
   + t * t * (y1 * (3 - 2 * t) + dx * s1 * (t - 1)))%Q.

Section Strings.

(** [std::to_string] and the stream insertion of a [Real] belong to the
    standard library; the class only concatenates what they return. *)
Variable to_string : Q -> string.
Variable put : Q -> string.

Definition err_range (x x_front x_back : Q) : string :=
  ("Requested abscissa x = " ++ to_string x
   ++ ", which is outside of allowed range ["
   ++ to_string x_front ++ ", " ++ to_string x_back ++ "]")%string.

(** [x < x_[0] || x > x_[x_.size()-1]], the right operand read only when the
    left one is false. *)
Definition outside (m : makima) (x : Q) : outcome bool :=
  x_front ← index (x_ m) 0;
  if Qltb x x_front then Ret true
  else
    x_back ← index (x_ m) (size_t.sub (size (x_ m)) 1);
    Ret (Qltb x_back x).

Definition operator_call (m : makima) (x : Q) : outcome Q :=
  out ← outside m x;
  if (out : bool) then
    x_front ← index (x_ m) 0;
    x_back ← index (x_ m) (size_t.sub (size (x_ m)) 1);
    Throw (domain_error (err_range x x_front x_back))
  else
    x_back ← index (x_ m) (size_t.sub (size (x_ m)) 1);
    if Qeq_bool x x_back then
      index (y_ m) (size_t.sub (size (y_ m)) 1)
    else
      it ← upper_bound (x_ m) x;
      let i := it - 1 in
      x0 ← index (x_ m) (it - 1);
      x1 ← index (x_ m) it;
      y0 ← index (y_ m) i;
      y1 ← index (y_ m) (i + 1);
      s0 ← index (s_ m) i;
      s1 ← index (s_ m) (i + 1);
      let dx := (x1 - x0)%Q in
      let t := ((x - x0) / dx)%Q in
      Ret (hermite_factored y0 y1 s0 s1 dx t).

(** *** Stream insertion *)

Definition triple (m : makima) (i : Z) : outcome string :=
  x ← index (x_ m) i;
  y ← index (y_ m) i;
  s ← index (s_ m) i;
  Ret ("(" ++ put x ++ ", " ++ put y ++ ", " ++ put s)%string.

Definition operator_shl (os : string) (m : makima) : outcome string :=
  let os := (os ++ "(x,y,y') = {")%string in
  let bound := size_t.sub (size (x_ m)) 1 in
  os ← for_loop (Z.to_nat bound) 0 bound
         (fun i os => t ← triple m i; Ret (os ++ t ++ "),  ")%string) os;
  let n := size_t.sub (size (x_ m)) 1 in
  t ← triple m n;
  Ret (os ++ t ++ ")}")%string.

(** *** The object and its public operations *)

Inductive op : Type :=
  | Evaluate (x : Q)
  | Format (os : string).

Inductive output : Type :=
  | value (r : outcome Q)
  | stream (r : outcome string).

(** Both operations take the object by [const] reference. *)
Definition step (m : makima) (o : op) : makima * output :=
  match o with
  | Evaluate x => (m, value (operator_call m x))
  | Format os => (m, stream (operator_shl os m))
  end.

End Strings.

(** ** The same code with [Real = double]

    The class once more, line by line, with the container's [value_type]
    instantiated with IEEE binary64: every operation of the source is one
    rounded operation of [PrimFloat] (round to nearest, ties to even; a
    product and a sum are not contracted into one fused operation), and the
    comparisons are those of the format (false as soon as an operand is not a
    number).  The outcomes, the arithmetic of [size_t] and the loops are the
    ones above. *)

Module F64.

Definition size (c : list float) : Z := Z.of_nat (length c).

Definition index (c : list float) (i : Z) : outcome float :=
  if decide (0 <= i) then
    match c !! Z.to_nat i with
    | Some v => Ret v
    | None => Undefined
    end
  else Undefined.

Definition store (c : list float) (i : Z) (v : float) : outcome (list float) :=
  if decide (0 <= i < size c) then Ret (<[Z.to_nat i := v]> c) else Undefined.

Definition resize (c : list float) (n : Z) : list float :=
  take (Z.to_nat n) c ++ replicate (Z.to_nat n - length c) 0%float.

Equations? upper_bound_loop (c : list float) (val : float) (first len : Z) : outcome Z
  by wf (Z.to_nat len) lt :=
  upper_bound_loop c val first len with decide (0 < len) => {
    | right _ => Ret first
    | left _ with index c (first + Z.shiftr len 1) => {
        | Ret middle with PrimFloat.ltb val middle => {
            | true => upper_bound_loop c val first (Z.shiftr len 1)
            | false => upper_bound_loop c val (first + Z.shiftr len 1 + 1)
                         (len - Z.shiftr len 1 - 1) }
        | Throw e => Throw e
        | Undefined => Undefined
        | OutOfFuel => OutOfFuel } }.
Proof.
  all: rewrite Z.shiftr_div_pow2 by lia; change (2 ^ 1) with 2;
    pose proof (Z.div_lt_upper_bound len 2 len);
    pose proof (Z.div_pos len 2); lia.
Defined.

Definition upper_bound (c : list float) (val : float) : outcome Z :=
  upper_bound_loop c val 0 (size c).

Record makima : Type := Build_makima {
  x_ : list float;
  y_ : list float;
  s_ : list float
}.

Definition order_body (x : list float) (i : Z) (x0 : float) : outcome float :=
  x1 ← index x i;
  if PrimFloat.leb x1 x0 then Throw (domain_error err_order) else Ret x1.

Definition secant (x y : list float) (a b : Z) : outcome float :=
  ya ← index y a;
  yb ← index y b;
  xa ← index x a;
  xb ← index x b;
  Ret ((ya - yb) / (xa - xb))%float.

Definition weighted_slope (mim2 mim1 mi mip1 : float) : float :=
  let numerator := (abs (mip1 - mi) * mim1 + abs (mim1 - mim2) * mi)%float in
  let denominator := (abs (mip1 - mi) + abs (mim1 - mim2))%float in
  (numerator / denominator)%float.

Definition slope_body (x y : list float) (i : Z) (s : list float) : outcome (list float) :=
  mim2 ← secant x y (size_t.sub i 1) (size_t.sub i 2);
  mim1 ← secant x y i (size_t.sub i 1);
  mi ← secant x y (size_t.add i 1) i;
  mip1 ← secant x y (size_t.add i 2) (size_t.add i 1);
  store s i (weighted_slope mim2 mim1 mi mip1).

Definition makima_ctor (x y : list float) : outcome makima :=
  if negb (size x =? size y) then Throw (domain_error err_sizes)
  else if size x <? 2 then Throw (domain_error err_few)
  else
    x0 ← index x 0;
    _ ← for_loop (Z.to_nat (size x)) 1 (size x) (order_body x) x0;
    let s := resize [] (size x) in
    (* the loop does not change the size of s_: its bound is read once *)
    let bound := size_t.sub (size s) 2 in
    s ← for_loop (Z.to_nat bound) 2 bound (slope_body x y) s;
    Ret (Build_makima x y s).

Definition hermite_factored (y0 y1 s0 s1 dx t : float) : float :=
  ((1 - t) * (1 - t) * (y0 * (1 + 2 * t) + s0 * dx)
   + t * t * (y1 * (3 - 2 * t) + dx * s1 * (t - 1)))%float.

Definition err_range (to_string : float → string) (x x_front x_back : float) : string :=
  ("Requested abscissa x = " ++ to_string x
   ++ ", which is outside of allowed range ["
   ++ to_string x_front ++ ", " ++ to_string x_back ++ "]")%string.

Definition outside (m : makima) (x : float) : outcome bool :=
  x_front ← index (x_ m) 0;
  if PrimFloat.ltb x x_front then Ret true
  else
    x_back ← index (x_ m) (size_t.sub (size (x_ m)) 1);
    Ret (PrimFloat.ltb x_back x).


Definition operator_call (to_string : float → string) (m : makima) (x : float)
    : outcome float :=
  out ← outside m x;
  if (out : bool) then
    x_front ← index (x_ m) 0;
    x_back ← index (x_ m) (size_t.sub (size (x_ m)) 1);
    Throw (domain_error (err_range to_string x x_front x_back))
  else
    x_back ← index (x_ m) (size_t.sub (size (x_ m)) 1);
    if PrimFloat.eqb x x_back then
      index (y_ m) (size_t.sub (size (y_ m)) 1)
    else
      it ← upper_bound (x_ m) x;
      let i := it - 1 in
      x0 ← index (x_ m) (it - 1);
      x1 ← index (x_ m) it;
      y0 ← index (y_ m) i;
      y1 ← index (y_ m) (i + 1);
      s0 ← index (s_ m) i;
      s1 ← index (s_ m) (i + 1);
      let dx := (x1 - x0)%float in
      let t := ((x - x0) / dx)%float in
      Ret (hermite_factored y0 y1 s0 s1 dx t).

End F64.

(** ** Vocabulary of the specification *)

(** The abscissas are strictly increasing: every adjacent pair is. *)
Definition increasing (x : list Q) : Prop :=
  ∀ (i : nat) (a b : Q), x !! i = Some a → x !! S i = Some b → (a < b)%Q.

(** Secant slope of the segment that starts at node [k]. *)
Definition secant_slope (x y : list Q) (k : nat) : Q :=
  ((y !!! S k - y !!! k) / (x !!! S k - x !!! k))%Q.

(** The weight denominator at node [i]. *)
Definition weight (x y : list Q) (i : nat) : Q :=
  (Qabs (secant_slope x y (i + 1) - secant_slope x y i)
   + Qabs (secant_slope x y (i - 1) - secant_slope x y (i - 2)))%Q.

(** The modified Akima slope at node [i], in the words of the specification. *)
Definition akima_slope (x y : list Q) (i : nat) : Q :=
  ((Qabs (secant_slope x y (i + 1) - secant_slope x y i) * secant_slope x y (i - 1)
    + Qabs (secant_slope x y (i - 1) - secant_slope x y (i - 2)) * secant_slope x y i)
   / weight x y i)%Q.

(** The standard Hermite basis. *)
Definition h00 (t : Q) : Q := (2 * t * t * t - 3 * t * t + 1)%Q.
Definition h10 (t : Q) : Q := (t * t * t - 2 * t * t + t)%Q.
Definition h01 (t : Q) : Q := (- (2) * t * t * t + 3 * t * t)%Q.
Definition h11 (t : Q) : Q := (t * t * t - t * t)%Q.

Definition hermite_standard (y0 y1 m0 m1 dx t : Q) : Q :=
  (y0 * h00 t + dx * m0 * h10 t + y1 * h01 t + dx * m1 * h11 t)%Q.

(** The factorised form of the comment of lines 80-81. *)
Definition hermite_comment (y0 y1 s0 s1 dx t : Q) : Q :=
  (y0 * (1 + 2 * t) * (1 - t) * (1 - t) + dx * s0 * t * (1 - t) * (1 - t)
   + y1 * t * t * (3 - 2 * t) + dx * s1 * t * t * (t - 1))%Q.

(** The cubic of the segment that starts at node [k], at local parameter [t]:
    what the call operator computes once it has located [k]. *)
Definition segment_cubic (m : makima) (k : nat) (t : Q) : Q :=
  hermite_factored (y_ m !!! k) (y_ m !!! S k) (s_ m !!! k) (s_ m !!! S k)
    (x_ m !!! S k - x_ m !!! k) t.

(** What a successful construction establishes. *)
Record constructed (x y : list Q) (m : makima) : Prop := {
  c_x : x_ m = x;
  c_y : y_ m = y;
  c_len_y : length y = length x;
  c_len_s : length (s_ m) = length x;
  c_two : (2 ≤ length x)%nat;
  c_incr : increasing x;
  c_interior : ∀ i : nat, (2 ≤ i < length x - 2)%nat →
      s_ m !! i = Some (weighted_slope (secant_slope x y (i - 2))
                          (secant_slope x y (i - 1)) (secant_slope x y i)
                          (secant_slope x y (i + 1)));
  c_boundary : ∀ i : nat, (i < length x)%nat → (i < 2 ∨ length x - 2 ≤ i)%nat →
      s_ m !! i = Some 0%Q
}.

(** Invariant of the slope loop at index [i]: the nodes [2 .. i-1] carry their
    weighted slope, every other one is still zero. *)
Definition slope_inv (x y : list Q) (i : Z) (s : list Q) : Prop :=
  length s = length x
  ∧ (∀ j : nat, (2 ≤ j)%nat → Z.of_nat j < i →
       s !! j = Some (weighted_slope (secant_slope x y (j - 2)) (secant_slope x y (j - 1))
                        (secant_slope x y j) (secant_slope x y (j + 1))))
  ∧ (∀ j : nat, (j < length x)%nat → (j < 2)%nat ∨ i <= Z.of_nat j → s !! j = Some 0%Q).

(** The slope of every node the loop visits lies between the two central
    secant slopes, wherever the weight denominator is not zero. *)
Definition slopes_between (m : makima) : Prop :=
  ∀ i : nat, (2 ≤ i < length (x_ m) - 2)%nat →
    ¬ (weight (x_ m) (y_ m) i == 0)%Q →
    ∃ v, s_ m !! i = Some v
         ∧ (Qmin (secant_slope (x_ m) (y_ m) (i - 1)) (secant_slope (x_ m) (y_ m) i) <= v)%Q
         ∧ (v <= Qmax (secant_slope (x_ m) (y_ m) (i - 1)) (secant_slope (x_ m) (y_ m) i))%Q.

(** The states an object goes through: built by the constructor, then any
    sequence of public operations. *)
Inductive reachable (to_string put : Q → string) : makima → Prop :=
  | reach_new (x y : list Q) (m : makima) :
      representable x → makima_ctor x y = Ret m → reachable to_string put m
  | reach_step (m : makima) (o : op) :
      reachable to_string put m → reachable to_string put (fst (step to_string put m o)).

(** [sub] occurs in [s]. *)
Definition contains (s sub : string) : Prop :=
  ∃ pre post : string, s = (pre ++ sub ++ post)%string.

(** The sample set of the quadratic example: [y = x^2] on [0 .. 4]. *)
Definition xs5 : list Q := [0; 1; 2; 3; 4]%Q.
Definition ys5 : list Q := [0; 1; 4; 9; 16]%Q.

(** The object the constructor builds from them. *)
Definition m5 : makima := Build_makima xs5 ys5 [0; 0; 16 # 4; 0; 0]%Q.

(** A stand-in for the standard renderings in the examples: the sign of the
    number. *)
Definition show_Q (q : Q) : string :=
  match Qnum q with
  | Z0 => "0"
  | Zpos _ => "+"
  | Zneg _ => "-"
  end.

(** *** Vocabulary of the further properties *)

(** Lines 66-85 of the call operator on their own: the search, the six reads
    and the cubic, with neither the domain check nor the return at the last
    abscissa before them. *)
Definition general_path (m : makima) (x : Q) : outcome Q :=
  it ← upper_bound (x_ m) x;
  let i := it - 1 in
  x0 ← index (x_ m) (it - 1);
  x1 ← index (x_ m) it;
  y0 ← index (y_ m) i;
  y1 ← index (y_ m) (i + 1);
  s0 ← index (s_ m) i;
  s1 ← index (s_ m) (i + 1);
  let dx := (x1 - x0)%Q in
  let t := ((x - x0) / dx)%Q in
  Ret (hermite_factored y0 y1 s0 s1 dx t).

(** The text of one sample in the listing, up to its closing parenthesis. *)
Definition row (put : Q → string) (m : makima) (i : nat) : string :=
  ("(" ++ put (x_ m !!! i) ++ ", " ++ put (y_ m !!! i) ++ ", " ++ put (s_ m !!! i))%string.

(** The first [k] samples, each closed and followed by the separator. *)
Fixpoint rows (put : Q → string) (m : makima) (k : nat) : string :=
  match k with
  | O => ""%string
  | S k' => (rows put m k' ++ row put m k' ++ "),  ")%string
  end.

(** The listing of the whole object after what the stream already holds. *)
Definition formatted (put : Q → string) (os : string) (m : makima) : string :=
  (os ++ "(x,y,y') = {" ++ rows put m (length (x_ m) - 1)
   ++ row put m (length (x_ m) - 1) ++ ")}")%string.

(** The invariants of the data model, the order of the abscissas as the
    constructor tests it: no adjacent pair passes [x[i] <= x[i-1]]. *)
Definition class_invariant (m : makima) : Prop :=
  length (y_ m) = length (x_ m)
  ∧ length (s_ m) = length (x_ m)
  ∧ (2 ≤ length (x_ m))%nat
  ∧ (∀ (i : nat) (a b : Q),
       x_ m !! i = Some a → x_ m !! S i = Some b → Qle_bool b a = false)
  ∧ representable (x_ m).

(** The order of the abscissas, decided. *)
Fixpoint increasingb (x : list Q) : bool :=
  match x with
  | a :: (b :: _) as rest => Qltb a b && increasingb rest
  | _ => true
  end.

(** Eight samples of [y = x^2], and ordinates that leave the first six as
    they are. *)
Definition xs8 : list Q := [0; 1; 2; 3; 4; 5; 6; 7]%Q.
Definition ys8 : list Q := [0; 1; 4; 9; 16; 25; 36; 49]%Q.
Definition ys8' : list Q := [0; 1; 4; 9; 16; 25; 40; 60]%Q.

(** *** Samples for the binary64 code *)

Definition xs_thirds : list float := [0; 3; 6; 9; 12]%float.
Definition ys_thirds : list float := [0; 3; 4; 5; 0]%float.

Definition xs_tiny : list float := [-1; 0x1p-60]%float.
Definition ys_tiny : list float := [0; 0]%float.

(** ** Arithmetic of [size_t] and container accesses *)

(** One step of the outcome monad. *)
Ltac run := cbn [mbind outcome_bind].

Lemma size_t_sub_small (a b : Z) :
  0 <= a - b < size_t.modulus → size_t.sub a b = a - b.
Proof. intros H. unfold size_t.sub, size_t.wrap. by apply Z.mod_small. Qed.

Lemma size_t_add_small (a b : Z) :
  0 <= a + b < size_t.modulus → size_t.add a b = a + b.
Proof. intros H. unfold size_t.add, size_t.wrap. by apply Z.mod_small. Qed.

Lemma index_lookup (c : list Q) (i : nat) (v : Q) :
  c !! i = Some v → index c (Z.of_nat i) = Ret v.
Proof.
  intros H. unfold index. destruct (decide (0 <= Z.of_nat i)); [|lia].
  by rewrite Nat2Z.id, H.
Qed.

Lemma index_total (c : list Q) (i : nat) :
  (i < length c)%nat → index c (Z.of_nat i) = Ret (c !!! i).
Proof.
  intros H. apply index_lookup. by apply list_lookup_lookup_total_lt.
Qed.

Lemma index_in_range (c : list Q) (i : Z) :
  0 <= i < size c → ∃ v, index c i = Ret v ∧ c !! Z.to_nat i = Some v.
Proof.
  unfold size. intros H. destruct (lookup_lt_is_Some_2 c (Z.to_nat i)) as [v Hv]; [lia|].
  exists v. split; [|done]. unfold index. destruct (decide _); [|lia]. by rewrite Hv.
Qed.

Lemma Qltb_lt (a b : Q) : Qltb a b = true ↔ (a < b)%Q.
Proof.
  unfold Qltb. rewrite negb_true_iff, <- not_true_iff_false, Qle_bool_iff.
  split; [apply Qnot_le_lt | apply Qlt_not_le].
Qed.

Lemma Qltb_ge (a b : Q) : Qltb a b = false ↔ (b <= a)%Q.
Proof.
  unfold Qltb. rewrite negb_false_iff. apply Qle_bool_iff.
Qed.

(** ** The loop rule *)

Section LoopRule.
Context {S : Type} (body : Z → S → outcome S) (bound : Z).
Context (Inv : Z → S → Prop).
Hypothesis bound_fits : bound < size_t.modulus.
Hypothesis body_ok : ∀ i s, 0 <= i < bound → Inv i s →
  ∃ s', body i s = Ret s' ∧ Inv (i + 1) s'.

(** With fuel for the remaining iterations the loop finishes, and the
    invariant holds where it stops. *)
Lemma for_loop_rule (fuel : nat) (i : Z) (s : S) :
  0 <= i → bound - i <= Z.of_nat fuel → Inv i s →
  ∃ s', for_loop fuel i bound body s = Ret s' ∧ Inv (Z.max i bound) s'.
Proof using bound_fits body_ok.
  revert i s. induction fuel as [|fuel IH]; intros i s Hi Hf HI.
  - exists s. simpl. destruct (decide (i < bound)); [lia|].
    by rewrite Z.max_l by lia.
  - simpl. destruct (decide (i < bound)) as [Hlt|Hge].
    + destruct (body_ok i s) as (s' & -> & HI'); [lia|done|].
      rewrite size_t_add_small by lia. simpl.
      replace (Z.max i bound) with (Z.max (i + 1) bound) by lia.
      apply IH; [lia|lia|done].
    + exists s. by rewrite Z.max_l by lia.
Qed.
End LoopRule.

(** ** The constructor *)

Lemma order_body_step (x : list Q) (i : nat) (x0 x1 : Q) :
  x !! i = Some x1 →
  order_body x (Z.of_nat i) x0
  = if Qle_bool x1 x0 then Throw (domain_error err_order) else Ret x1.
Proof. intros H. unfold order_body. by rewrite (index_lookup _ _ _ H). Qed.

(** The order loop, entered at position [k + 1] with [x0 = x[k]], either
    finishes, and then every adjacent pair from [k] on is increasing, or throws,
    and then some adjacent pair from [k] on is not. *)
Lemma order_loop_spec (x : list Q) (fuel k : nat) (x0 : Q) :
  representable x → (k < length x)%nat → (length x - S k ≤ fuel)%nat →
  x !! k = Some x0 →
  ((∀ (j : nat) (a b : Q), (k ≤ j)%nat → x !! j = Some a → x !! S j = Some b → (a < b)%Q)
   ∧ ∃ r, for_loop fuel (Z.of_nat (S k)) (size x) (order_body x) x0 = Ret r)
  ∨ ((∃ (j : nat) (a b : Q), (k ≤ j)%nat ∧ x !! j = Some a ∧ x !! S j = Some b ∧ (b <= a)%Q)
     ∧ for_loop fuel (Z.of_nat (S k)) (size x) (order_body x) x0
       = Throw (domain_error err_order)).
Proof.
  intros Hrep. unfold representable, size in Hrep.
  revert k x0. induction fuel as [|fuel IH]; intros k x0 Hk Hf Hx0.
  - left. split.
    + intros j a b Hj _ Hb. apply lookup_lt_Some in Hb. lia.
    + exists x0. simpl. unfold size. destruct (decide _); [lia|done].
  - cbn [for_loop]. unfold size. destruct (decide _) as [Hlt|Hge].
    + destruct (lookup_lt_is_Some_2 x (S k)) as [x1 Hx1]; [lia|].
      rewrite (order_body_step _ _ _ _ Hx1).
      destruct (Qle_bool x1 x0) eqn:Hcmp; run.
      * right. split; [|done]. exists k, x0, x1.
        apply Qle_bool_iff in Hcmp. done.
      * rewrite size_t_add_small by lia.
        replace (Z.of_nat (S k) + 1) with (Z.of_nat (S (S k))) by lia.
        assert (x0 < x1)%Q as Hlt01.
        { apply Qnot_le_lt. intros Hle. apply Qle_bool_iff in Hle. congruence. }
        destruct (IH (S k) x1) as [[Hinc Hret]|[(j & a & b & Hj & Ha & Hb & Hba) Hthrow]];
          [lia|lia|done|left|right].
        -- split; [|done]. intros j a b Hj Ha Hb.
           destruct (decide (j = k)) as [->|Hne].
           ++ replace a with x0 by congruence. replace b with x1 by congruence. done.
           ++ apply (Hinc j); [lia|done|done].
        -- split; [|done]. exists j, a, b. split; [lia|done].
    + left. split.
      * intros j a b Hj _ Hb. apply lookup_lt_Some in Hb. lia.
      * by exists x0.
Qed.

Lemma resize_nil (n : nat) : resize [] (Z.of_nat n) = replicate n 0%Q.
Proof.
  unfold resize. rewrite Nat2Z.id, take_nil. simpl. by rewrite Nat.sub_0_r.
Qed.

Lemma secant_ok (x y : list Q) (a b : Z) (k : nat) :
  length y = length x → (S k < length x)%nat →
  a = Z.of_nat (S k) → b = Z.of_nat k →
  secant x y a b = Ret (secant_slope x y k).
Proof.
  intros Hlen Hk -> ->. unfold secant, secant_slope.
  rewrite !index_total by lia. done.
Qed.

Lemma slope_body_ok (x y s : list Q) (i : nat) :
  representable x → length y = length x → length s = length x →
  (2 ≤ i)%nat → (i + 2 < length x)%nat →
  slope_body x y (Z.of_nat i) s
  = Ret (<[i := weighted_slope (secant_slope x y (i - 2)) (secant_slope x y (i - 1))
                  (secant_slope x y i) (secant_slope x y (i + 1))]> s).
Proof.
  intros Hrep Hy Hs H2 Hi. unfold representable, size in Hrep. unfold slope_body.
  set (i1 := size_t.sub (Z.of_nat i) 1). set (i2 := size_t.sub (Z.of_nat i) 2).
  set (j1 := size_t.add (Z.of_nat i) 1). set (j2 := size_t.add (Z.of_nat i) 2).
  assert (i1 = Z.of_nat i - 1) as E1 by (apply size_t_sub_small; lia).
  assert (i2 = Z.of_nat i - 2) as E2 by (apply size_t_sub_small; lia).
  assert (j1 = Z.of_nat i + 1) as F1 by (apply size_t_add_small; lia).
  assert (j2 = Z.of_nat i + 2) as F2 by (apply size_t_add_small; lia).
  rewrite (secant_ok x y i1 i2 (i - 2)), (secant_ok x y (Z.of_nat i) i1 (i - 1)),
    (secant_ok x y j1 (Z.of_nat i) i), (secant_ok x y j2 j1 (i + 1)) by (done || lia).
  run. unfold store, size.
  destruct (decide _); [|lia]. by rewrite Nat2Z.id.
Qed.

Lemma slope_loop_spec (x y : list Q) :
  representable x → length y = length x → (2 ≤ length x)%nat →
  let bound := size_t.sub (size (resize [] (size x))) 2 in
  bound = size x - 2
  ∧ ∃ s, for_loop (Z.to_nat bound) 2 bound (slope_body x y) (resize [] (size x)) = Ret s
         ∧ slope_inv x y (Z.max 2 (size x - 2)) s.
Proof.
  intros Hrep Hy H2 bound.
  assert (bound = size x - 2) as Hb.
  { unfold bound, size in *. rewrite resize_nil, length_replicate.
    unfold representable, size in Hrep. apply size_t_sub_small. lia. }
  split; [done|]. rewrite Hb. unfold representable in Hrep.
  destruct (for_loop_rule (slope_body x y) (size x - 2)
              (fun i s => 2 <= i ∧ slope_inv x y i s)) with
    (fuel := Z.to_nat (size x - 2)) (i := 2) (s := resize [] (size x))
    as (s & Hs & _ & Hinv).
  - lia.
  - intros i s Hi [H2i (Hlen & Hdone & Hzero)]. unfold size in Hi.
    replace i with (Z.of_nat (Z.to_nat i)) by lia.
    set (k := Z.to_nat i) in *.
    rewrite slope_body_ok by (done || lia).
    eexists. split; [done|]. split; [lia|]. split; [|split].
    + by rewrite length_insert.
    + intros j Hj2 Hji. destruct (decide (j = k)) as [->|Hne].
      * rewrite list_lookup_insert_eq by lia. done.
      * rewrite list_lookup_insert_ne by done. apply Hdone; [done|lia].
    + intros j Hjn Hj. rewrite list_lookup_insert_ne by lia.
      apply Hzero; [done|lia].
  - lia.
  - lia.
  - split; [lia|]. unfold size. rewrite resize_nil. split; [|split].
    + by rewrite length_replicate.
    + intros j Hj2 Hj. lia.
    + intros j Hjn _. by apply lookup_replicate_2.
  - exists s. done.
Qed.

(** A well-formed input is accepted, and the object holds what the two loops
    computed. *)
Lemma ctor_ok (x y : list Q) :
  representable x → length y = length x → (2 ≤ length x)%nat → increasing x →
  ∃ m, makima_ctor x y = Ret m ∧ constructed x y m.
Proof.
  intros Hrep Hy H2 Hinc. unfold makima_ctor.
  assert ((size x =? size y) = true) as -> by (unfold size; lia).
  assert ((size x <? 2) = false) as -> by (unfold size; lia).
  cbn [negb].
  destruct (lookup_lt_is_Some_2 x 0) as [x0 Hx0]; [lia|].
  rewrite (index_lookup x 0%nat x0 Hx0 : index x 0 = Ret x0). run.
  destruct (order_loop_spec x (Z.to_nat (size x)) 0 x0 Hrep)
    as [[_ [r Hr]]|[(j & a & b & _ & Ha & Hb & Hba) _]];
    [lia|unfold size; lia|done| |].
  - change (Z.of_nat 1) with 1 in Hr. rewrite Hr. run.
    destruct (slope_loop_spec x y Hrep Hy H2) as (Hb & s & Hs & Hlen & Hint & Hzero).
    cbv zeta. rewrite Hs. run.
    eexists. split; [done|]. unfold size in *.
    split; cbn [x_ y_ s_]; try done.
    + intros i Hi. apply Hint; lia.
    + intros i Hi Hi'. apply Hzero; [done|lia].
  - exfalso. specialize (Hinc j a b Ha Hb). lra.
Qed.

Lemma ctor_sizes (x y : list Q) :
  length x ≠ length y → makima_ctor x y = Throw (domain_error err_sizes).
Proof.
  intros H. unfold makima_ctor.
  assert ((size x =? size y) = false) as -> by (unfold size; lia). done.
Qed.

Lemma ctor_few (x y : list Q) :
  length x = length y → (length x < 2)%nat →
  makima_ctor x y = Throw (domain_error err_few).
Proof.
  intros Hy H. unfold makima_ctor.
  assert ((size x =? size y) = true) as -> by (unfold size; lia).
  assert ((size x <? 2) = true) as -> by (unfold size; lia). done.
Qed.

Lemma ctor_order (x y : list Q) :
  representable x → length x = length y → (2 ≤ length x)%nat →
  (∃ (i : nat) (a b : Q), x !! i = Some a ∧ x !! S i = Some b ∧ (b <= a)%Q) →
  makima_ctor x y = Throw (domain_error err_order).
Proof.
  intros Hrep Hy H2 (i & a & b & Ha & Hb & Hba). unfold makima_ctor.
  assert ((size x =? size y) = true) as -> by (unfold size; lia).
  assert ((size x <? 2) = false) as -> by (unfold size; lia).
  cbn [negb].
  destruct (lookup_lt_is_Some_2 x 0) as [x0 Hx0]; [lia|].
  rewrite (index_lookup x 0%nat x0 Hx0 : index x 0 = Ret x0). run.
  destruct (order_loop_spec x (Z.to_nat (size x)) 0 x0 Hrep)
    as [[Hinc _]|[_ Hthrow]]; [lia|unfold size; lia|done| |].
  - exfalso. specialize (Hinc i a b ltac:(lia) Ha Hb). lra.
  - change (Z.of_nat 1) with 1 in Hthrow. by rewrite Hthrow.
Qed.

(** The order of a nonempty container is decided by its adjacent pairs. *)
Lemma order_dichotomy (x : list Q) :
  increasing x
  ∨ ∃ (i : nat) (a b : Q), x !! i = Some a ∧ x !! S i = Some b ∧ (b <= a)%Q.
Proof.
  induction x as [|a [|b x] IH].
  - left. intros i p q H. done.
  - left. intros i p q _ H. by destruct i.
  - destruct IH as [IH|(i & p & q & Hp & Hq & Hpq)].
    + destruct (Qlt_le_dec a b) as [Hab|Hba].
      * left. intros [|i] p q Hp Hq.
        -- simpl in Hp, Hq. injection Hp as <-. injection Hq as <-. done.
        -- by apply (IH i).
      * right. by exists 0%nat, a, b.
    + right. by exists (S i), p, q.
Qed.

(** Whatever the constructor returns satisfies the class invariant. *)
Lemma ctor_inv (x y : list Q) (m : makima) :
  representable x → makima_ctor x y = Ret m → constructed x y m.
Proof.
  intros Hrep Hm.
  destruct (decide (length x = length y)) as [Hy|Hy];
    [|by rewrite ctor_sizes in Hm].
  destruct (decide (2 ≤ length x)%nat) as [H2|H2];
    [|rewrite ctor_few in Hm by (done || lia); done].
  destruct (order_dichotomy x) as [Hinc|Hbad];
    [|by rewrite ctor_order in Hm].
  destruct (ctor_ok x y) as (m' & Hm' & Hc); [done..|].
  congruence.
Qed.

(** ** The interval search *)

Lemma increasing_lt (c : list Q) (i j : nat) (a b : Q) :
  increasing c → (i < j)%nat → c !! i = Some a → c !! j = Some b → (a < b)%Q.
Proof.
  intros Hinc Hij Ha. revert b. induction Hij as [|j Hij IH]; intros b Hb.
  - by apply (Hinc i).
  - destruct (lookup_lt_is_Some_2 c j) as [p Hp].
    { apply lookup_lt_Some in Hb. lia. }
    apply Qlt_trans with p; [by apply IH | by apply (Hinc j)].
Qed.

Lemma increasing_le (c : list Q) (i j : nat) (a b : Q) :
  increasing c → (i ≤ j)%nat → c !! i = Some a → c !! j = Some b → (a <= b)%Q.
Proof.
  intros Hinc Hij Ha Hb. destruct (decide (i = j)) as [->|Hne].
  - replace b with a by congruence. apply Qle_refl.
  - apply Qlt_le_weak. apply (increasing_lt c i j); [done|lia|done|done].
Qed.

Lemma shiftr_1_bounds (len : Z) :
  0 < len → 0 <= Z.shiftr len 1 < len.
Proof.
  intros H. rewrite Z.shiftr_div_pow2 by lia. change (2 ^ 1) with 2.
  pose proof (Z.div_lt_upper_bound len 2 len). pose proof (Z.div_pos len 2). lia.
Qed.

(** The bisection keeps the elements not greater than [val] to the left of
    the range and the greater ones to its right. *)
Lemma upper_bound_loop_spec (c : list Q) (val : Q) (first len : Z) :
  increasing c → 0 <= first → 0 <= len → first + len <= size c →
  (∀ (j : nat) (a : Q), Z.of_nat j < first → c !! j = Some a → (a <= val)%Q) →
  (∀ (j : nat) (a : Q), first + len <= Z.of_nat j → c !! j = Some a → (val < a)%Q) →
  ∃ r, upper_bound_loop c val first len = Ret r
       ∧ first <= r <= first + len
       ∧ (∀ (j : nat) (a : Q), Z.of_nat j < r → c !! j = Some a → (a <= val)%Q)
       ∧ (∀ (j : nat) (a : Q), r <= Z.of_nat j → c !! j = Some a → (val < a)%Q).
Proof.
  intros Hinc. funelim (upper_bound_loop c val first len);
    intros Hfirst Hlen Hsize Hleft Hright.
  all: try (pose proof (shiftr_1_bounds len ltac:(done)) as Hhalf;
            destruct (index_in_range c (first + Z.shiftr len 1))
              as (v & Hv & Hlook); [lia|]).
  all: try congruence.
  - (* the range is empty *)
    exists first. split; [done|]. split; [lia|]. split; [done|].
    intros j a Hj. apply Hright. lia.
  - (* val < *middle: continue to the left of middle *)
    assert (v = middle) as -> by congruence.
    match goal with HQ : Qltb _ _ = true |- _ => apply Qltb_lt in HQ; rename HQ into Hcmp end.
    match goal with IH : context [upper_bound_loop] |- _ =>
      destruct IH as (r & Hr & Hrange & Hl & Hrr) end; [done|done|lia|lia|done| |].
    + intros j a Hj Ha. apply Qlt_le_trans with middle; [done|].
      apply (increasing_le c (Z.to_nat (first + Z.shiftr len 1)) j); [done|lia|done|done].
    + exists r. split; [done|]. split; [lia|done].
  - (* otherwise: continue to the right of middle *)
    assert (v = middle) as -> by congruence.
    match goal with HQ : Qltb _ _ = false |- _ => apply Qltb_ge in HQ; rename HQ into Hcmp end.
    match goal with IH : context [upper_bound_loop] |- _ =>
      destruct IH as (r & Hr & Hrange & Hl & Hrr) end; [done|lia|lia|lia| | |].
    + intros j a Hj Ha. apply Qle_trans with middle; [|done].
      apply (increasing_le c j (Z.to_nat (first + Z.shiftr len 1))); [done|lia|done|done].
    + intros j a Hj. apply Hright. lia.
    + exists r. split; [done|]. split; [lia|done].
Qed.

Lemma upper_bound_spec (c : list Q) (val : Q) :
  increasing c →
  ∃ r, upper_bound c val = Ret r
       ∧ 0 <= r <= size c
       ∧ (∀ (j : nat) (a : Q), Z.of_nat j < r → c !! j = Some a → (a <= val)%Q)
       ∧ (∀ (j : nat) (a : Q), r <= Z.of_nat j → c !! j = Some a → (val < a)%Q).
Proof.
  intros Hinc. unfold upper_bound.
  destruct (upper_bound_loop_spec c val 0 (size c)) as (r & Hr & Hrange & Hl & Hrr);
    [done|lia|unfold size; lia|lia| | |].
  - intros j a Hj. lia.
  - intros j a Hj Ha. apply lookup_lt_Some in Ha. unfold size in Hj. lia.
  - exists r. split; [done|]. split; [lia|done].
Qed.

(** ** The call operator on a constructed object *)

Section Evaluation.
Variable to_string : Q → string.
Context (x y : list Q) (m : makima).
Hypothesis Hrep : representable x.
Hypothesis Hc : constructed x y m.

Let n := length x.
Let front := x !!! 0%nat.
Let back := x !!! (n - 1)%nat.

Lemma back_index : index (x_ m) (size_t.sub (size (x_ m)) 1) = Ret back.
Proof using Hrep Hc.
  destruct Hc as [-> _ _ _ H2 _ _ _]. unfold representable, size in *.
  rewrite size_t_sub_small by lia.
  replace (Z.of_nat (length x) - 1) with (Z.of_nat (n - 1)) by (subst n; lia).
  apply index_total. subst n; lia.
Qed.

Lemma front_index : index (x_ m) 0 = Ret front.
Proof using Hc.
  destruct Hc as [-> _ _ _ H2 _ _ _].
  apply (index_total x 0). lia.
Qed.

Lemma outside_spec (q : Q) :
  outside m q = Ret (Qltb q front || Qltb back q).
Proof using Hrep Hc.
  unfold outside. rewrite front_index. run.
  destruct (Qltb q front); [done|]. by rewrite back_index.
Qed.

Lemma call_outside (q : Q) :
  (q < front)%Q ∨ (back < q)%Q →
  operator_call to_string m q
  = Throw (domain_error (err_range to_string q front back)).
Proof using Hrep Hc.
  intros H. unfold operator_call. rewrite outside_spec. run.
  assert (Qltb q front || Qltb back q = true) as ->.
  { apply orb_true_iff. by rewrite !Qltb_lt. }
  by rewrite front_index, back_index.
Qed.

Lemma call_not_outside (q : Q) :
  (front <= q)%Q → (q <= back)%Q →
  Qltb q front || Qltb back q = false.
Proof. intros H1 H2. apply orb_false_iff. by rewrite !Qltb_ge. Qed.

Lemma call_back (q : Q) :
  (front <= q)%Q → (q == back)%Q →
  operator_call to_string m q = Ret (y !!! (n - 1)%nat).
Proof using Hrep Hc.
  intros H1 H2. unfold operator_call. rewrite outside_spec. run.
  rewrite call_not_outside by (done || lra).
  rewrite back_index. run.
  rewrite (Qeq_eq_bool _ _ H2).
  destruct Hc as [_ -> Hy _ H2' _ _ _]. unfold representable, size in *.
  rewrite size_t_sub_small by lia.
  replace (Z.of_nat (length y) - 1) with (Z.of_nat (n - 1)) by (subst n; lia).
  apply index_total. subst n; lia.
Qed.

(** Strictly inside the range the search finds the segment of the query,
    and the operator returns the cubic of that segment. *)
Lemma call_inside (q : Q) :
  (front <= q)%Q → (q < back)%Q →
  ∃ i : nat,
    (i + 1 < n)%nat
    ∧ upper_bound (x_ m) q = Ret (Z.of_nat i + 1)
    ∧ (x !!! i <= q)%Q ∧ (q < x !!! S i)%Q
    ∧ operator_call to_string m q
      = Ret (segment_cubic m i ((q - x !!! i) / (x !!! S i - x !!! i))).
Proof using Hrep Hc.
  intros H1 H2.
  destruct Hc as [Hx Hy Hleny Hlens Htwo Hinc _ _].
  destruct (upper_bound_spec x q Hinc) as (r & Hr & Hrange & Hl & Hrr).
  unfold size in Hrange.
  assert (1 <= r) as Hr1.
  { destruct (decide (1 <= r)); [done|]. exfalso.
    assert (q < front)%Q; [|lra].
    apply (Hrr 0%nat); [lia|]. apply list_lookup_lookup_total_lt. lia. }
  assert (r < Z.of_nat n) as Hrn.
  { destruct (decide (r < Z.of_nat n)); [done|]. exfalso.
    assert (back <= q)%Q; [|lra].
    apply (Hl (n - 1)%nat); [subst n; lia|].
    apply list_lookup_lookup_total_lt. subst n; lia. }
  exists (Z.to_nat (r - 1)). set (i := Z.to_nat (r - 1)).
  assert (r = Z.of_nat i + 1) as Hri by (subst i; lia).
  assert (i + 1 < n)%nat as Hin by lia.
  split; [done|]. split; [by rewrite Hx, Hr, Hri|].
  assert (x !!! i <= q)%Q as Hlo.
  { apply (Hl i); [lia|]. apply list_lookup_lookup_total_lt. subst n; lia. }
  assert (q < x !!! S i)%Q as Hhi.
  { apply (Hrr (S i)); [lia|]. apply list_lookup_lookup_total_lt. subst n; lia. }
  split; [done|]. split; [done|].
  unfold operator_call. rewrite outside_spec. run.
  rewrite call_not_outside by (done || lra).
  rewrite back_index. run.
  assert (Qeq_bool q back = false) as ->.
  { apply not_true_iff_false. intros E. apply Qeq_bool_iff in E. lra. }
  rewrite Hx, Hr. run. rewrite Hri.
  replace (Z.of_nat i + 1 - 1) with (Z.of_nat i) by lia.
  replace (Z.of_nat i + 1) with (Z.of_nat (S i)) by lia.
  subst n. rewrite Hy.
  rewrite !index_total by lia. run.
  unfold segment_cubic. by rewrite Hx, Hy.
Qed.
End Evaluation.

(** ** The Hermite cubic *)

(** The form of the comment of lines 80-81 is the standard Hermite form. *)
Lemma hermite_comment_standard (y0 y1 s0 s1 dx t : Q) :
  (hermite_comment y0 y1 s0 s1 dx t == hermite_standard y0 y1 s0 s1 dx t)%Q.
Proof. unfold hermite_comment, hermite_standard, h00, h10, h01, h11. ring. Qed.

(** The expression of lines 83-84 lost the factor [t] of the term in [s0]:
    it exceeds the standard form by [s0*dx*(1-t)^3]. *)
Lemma hermite_factored_excess (y0 y1 s0 s1 dx t : Q) :
  (hermite_factored y0 y1 s0 s1 dx t
   == hermite_standard y0 y1 s0 s1 dx t + s0 * dx * ((1 - t) * (1 - t) * (1 - t)))%Q.
Proof. unfold hermite_factored, hermite_standard, h00, h10, h01, h11. ring. Qed.

#[export] Instance hermite_factored_proper :
  Proper (Qeq ==> Qeq ==> Qeq ==> Qeq ==> Qeq ==> Qeq ==> Qeq) hermite_factored.
Proof.
  intros a a' Ha b b' Hb c c' Hc d d' Hd e e' He f f' Hf.
  unfold hermite_factored. by rewrite Ha, Hb, Hc, Hd, He, Hf.
Qed.

Lemma hermite_factored_0 (y0 y1 s0 s1 dx : Q) :
  (hermite_factored y0 y1 s0 s1 dx 0 == y0 + s0 * dx)%Q.
Proof. unfold hermite_factored. ring. Qed.

Lemma hermite_factored_1 (y0 y1 s0 s1 dx : Q) :
  (hermite_factored y0 y1 s0 s1 dx 1 == y1)%Q.
Proof. unfold hermite_factored. ring. Qed.

(** C1. At [t = 0], with [s0 = 1] and [dx = 1], the expression the call
    operator evaluates gives [1] where the standard Hermite form gives [0]:
    the two are not the same function of [t]. *)
Theorem C1_factored_is_not_standard :
  (hermite_factored 0 0 1 0 1 0 == 1)%Q
  ∧ (hermite_standard 0 0 1 0 1 0 == 0)%Q
  ∧ ¬ (∀ y0 y1 s0 s1 dx t : Q,
         hermite_factored y0 y1 s0 s1 dx t == hermite_standard y0 y1 s0 s1 dx t)%Q.
Proof.
  split; [reflexivity|]. split; [reflexivity|].
  intros H. specialize (H 0 0 1 0 1 0)%Q. vm_compute in H. discriminate H.
Qed.

(** The two one-sided values of the cubic of a segment. *)
Lemma segment_cubic_right_end (m : makima) (k : nat) :
  (segment_cubic m k 1 == y_ m !!! S k)%Q.
Proof. apply hermite_factored_1. Qed.

Lemma segment_cubic_left_end (m : makima) (k : nat) :
  (segment_cubic m k 0
   == y_ m !!! k + s_ m !!! k * (x_ m !!! S k - x_ m !!! k))%Q.
Proof. apply hermite_factored_0. Qed.

(** On the segment that starts at node [i] the call operator returns the
    cubic of that segment. *)
Lemma call_on_segment (to_string : Q → string) (x y : list Q) (m : makima)
    (i : nat) (q : Q) :
  representable x → constructed x y m → (S i < length x)%nat →
  (x !!! i <= q)%Q → (q < x !!! S i)%Q →
  operator_call to_string m q
  = Ret (segment_cubic m i ((q - x !!! i) / (x !!! S i - x !!! i))).
Proof.
  intros Hrep Hc Hi Hlo Hhi. pose proof (c_incr _ _ _ Hc) as Hinc.
  assert (∀ j : nat, (j < length x)%nat → x !! j = Some (x !!! j)) as Hlook.
  { intros j Hj. by apply list_lookup_lookup_total_lt. }
  assert (∀ j k : nat, (j ≤ k)%nat → (k < length x)%nat → (x !!! j <= x !!! k)%Q) as Hmono.
  { intros j k Hjk Hk. apply (increasing_le x j k); [done|done|apply Hlook; lia..]. }
  destruct (call_inside to_string x y m Hrep Hc q)
    as (k & Hk & _ & Hlo' & Hhi' & Hcall).
  - assert (x !!! 0%nat <= x !!! i)%Q by (apply Hmono; lia). lra.
  - assert (x !!! S i <= x !!! (length x - 1)%nat)%Q by (apply Hmono; lia). lra.
  - assert (k = i) as ->; [|done].
    destruct (Nat.lt_trichotomy k i) as [Hlt|[->|Hgt]]; [|done|]; exfalso.
    + assert (x !!! S k <= x !!! i)%Q by (apply Hmono; lia). lra.
    + assert (x !!! S i <= x !!! k)%Q by (apply Hmono; lia). lra.
Qed.

(** At a node other than the last one the call operator returns the ordinate
    plus the slope times the length of the segment to the right. *)
Lemma call_at_node (to_string : Q → string) (x y : list Q) (m : makima) (i : nat) :
  representable x → constructed x y m → (S i < length x)%nat →
  ∃ v, operator_call to_string m (x !!! i) = Ret v
       ∧ (v == segment_cubic m i 0)%Q
       ∧ (v == y !!! i + s_ m !!! i * (x !!! S i - x !!! i))%Q.
Proof.
  intros Hrep Hc Hi. pose proof (c_incr _ _ _ Hc) as Hinc.
  assert (x !!! i < x !!! S i)%Q as Hlt.
  { apply (Hinc i); apply list_lookup_lookup_total_lt; lia. }
  eexists. split.
  - apply (call_on_segment to_string x y m i); [done|done|done|lra|done].
  - assert (segment_cubic m i ((x !!! i - x !!! i) / (x !!! S i - x !!! i))
            == segment_cubic m i 0)%Q as E.
    { unfold segment_cubic. apply hermite_factored_proper; try reflexivity.
      unfold Qdiv. ring. }
    split; [exact E|]. rewrite E, segment_cubic_left_end.
    by rewrite (c_x _ _ _ Hc), (c_y _ _ _ Hc).
Qed.

(** ** The claims about the value at the nodes *)

(** C2. On the samples [y = x^2] at [x = 0 .. 4] the construction succeeds,
    node [2] has abscissa [2] and ordinate [4], and the call operator returns
    [8] at [2]: the ordinate of the node is not reproduced. *)
Theorem C2_node_value_not_reproduced :
  makima_ctor xs5 ys5 = Ret m5
  ∧ xs5 !! 2%nat = Some 2%Q ∧ ys5 !! 2%nat = Some 4%Q
  ∧ ∀ to_string : Q → string,
      ∃ v, operator_call to_string m5 2 = Ret v ∧ (v == 8)%Q ∧ ¬ (v == 4)%Q.
Proof.
  split; [vm_compute; reflexivity|]. split; [reflexivity|].
  split; [reflexivity|]. intros to_string.
  eexists. split; [vm_compute; reflexivity|]. split; [reflexivity|].
  intros H. vm_compute in H. discriminate H.
Qed.

(** Left of node [2] of the same samples the value of the call operator tends
    to the ordinate [4] of the node. *)
Lemma left_of_node_2 (to_string : Q → string) (q : Q) :
  (1 <= q)%Q → (q < 2)%Q →
  ∃ v, operator_call to_string m5 q = Ret v
       ∧ (v == segment_cubic m5 1 (q - 1))%Q
       ∧ (Qabs (v - 4) <= 5 * (2 - q))%Q.
Proof.
  intros H1 H2.
  assert (representable xs5) as Hrep by reflexivity.
  assert (constructed xs5 ys5 m5) as Hc
    by (apply ctor_inv; [done|vm_compute; reflexivity]).
  eexists. split.
  - apply (call_on_segment to_string xs5 ys5 m5 1 q Hrep Hc);
      [simpl; lia|exact H1|exact H2].
  - assert (((q - xs5 !!! 1%nat) / (xs5 !!! 2%nat - xs5 !!! 1%nat)) == q - 1)%Q as Et.
    { change (xs5 !!! 1%nat) with 1%Q. change (xs5 !!! 2%nat) with 2%Q. field. }
    assert (segment_cubic m5 1 ((q - xs5 !!! 1%nat) / (xs5 !!! 2%nat - xs5 !!! 1%nat))
            == segment_cubic m5 1 (q - 1))%Q as E.
    { unfold segment_cubic. apply hermite_factored_proper; try reflexivity. exact Et. }
    split; [exact E|]. rewrite E.
    unfold segment_cubic, hermite_factored.
    change (y_ m5 !!! 1%nat) with 1%Q. change (y_ m5 !!! 2%nat) with 4%Q.
    change (s_ m5 !!! 1%nat) with 0%Q. change (s_ m5 !!! 2%nat) with (16 # 4)%Q.
    change (x_ m5 !!! 1%nat) with 1%Q. change (x_ m5 !!! 2%nat) with 2%Q.
    assert (0 <= 2 - q)%Q as U0 by lra.
    assert (0 <= (2 - q) * (q - 1))%Q as P1 by (apply Qmult_le_0_compat; lra).
    assert (0 <= (2 - q) * (2 - q))%Q as UU by (by apply Qmult_le_0_compat).
    assert (0 <= (2 - q) * ((2 - q) * (2 - q)))%Q as P2
      by (by apply Qmult_le_0_compat).
    assert (0 <= (2 - q) * (1 - (2 - q) * (2 - q)))%Q as P3
      by (apply Qmult_le_0_compat; lra).
    apply Qabs_Qle_condition. split; lra.
Qed.

(** C3. On the same samples the values of the call operator left of the
    interior node [2] tend to [4], the value at local parameter [1] of the
    cubic of the segment [[1, 2]], while the cubic of the segment [[2, 3]]
    starts at [8], which is the value the call operator returns at [2]: the
    interpolant jumps at the node. *)
Theorem C3_jump_at_interior_node :
  makima_ctor xs5 ys5 = Ret m5
  ∧ (∀ (to_string : Q → string) (q : Q), (1 <= q)%Q → (q < 2)%Q →
       ∃ v, operator_call to_string m5 q = Ret v
            ∧ (Qabs (v - 4) <= 5 * (2 - q))%Q)
  ∧ (segment_cubic m5 1 1 == 4)%Q
  ∧ (∀ to_string : Q → string,
       ∃ v, operator_call to_string m5 2 = Ret v
            ∧ (v == 8)%Q ∧ (v == segment_cubic m5 2 0)%Q)
  ∧ ¬ (segment_cubic m5 1 1 == segment_cubic m5 2 0)%Q.
Proof.
  split; [vm_compute; reflexivity|]. split; [|split; [reflexivity|split]].
  - intros to_string q H1 H2.
    destruct (left_of_node_2 to_string q H1 H2) as (v & Hv & _ & Hb).
    by exists v.
  - intros to_string. eexists.
    split; [vm_compute; reflexivity|]. split; reflexivity.
  - intros H. vm_compute in H. discriminate H.
Qed.

(** ** The claims about the domain of the call operator *)


Lemma string_append_assoc (a b c : string) :
  ((a ++ b) ++ c = a ++ (b ++ c))%string.
Proof. induction a as [|ch a IH]; simpl; [done|by rewrite IH]. Qed.

Lemma err_range_contains (to_string : Q → string) (q front back : Q) :
  contains (err_range to_string q front back) (to_string q)
  ∧ contains (err_range to_string q front back) (to_string front)
  ∧ contains (err_range to_string q front back) (to_string back).
Proof.
  unfold contains, err_range. split; [|split].
  - eexists _, _. reflexivity.
  - exists ("Requested abscissa x = " ++ to_string q
            ++ ", which is outside of allowed range [")%string,
      (", " ++ to_string back ++ "]")%string.
    by rewrite <- !string_append_assoc.
  - exists ("Requested abscissa x = " ++ to_string q
            ++ ", which is outside of allowed range ["
            ++ to_string front ++ ", ")%string, "]"%string.
    by rewrite <- !string_append_assoc.
Qed.

(** C4. On a constructed object the call operator throws exactly for the
    queries below the first or above the last abscissa and returns a value
    exactly for those of the closed range; the message of the exception is the
    rendering of the query and of the two ends of the range inside a fixed
    text; the object is the same after the call. *)
Theorem C4_out_of_domain (to_string put : Q → string) (x y : list Q) (m : makima) (q : Q) :
  representable x → makima_ctor x y = Ret m →
  let front := x !!! 0%nat in
  let back := x !!! (length x - 1)%nat in
  ((∃ e, operator_call to_string m q = Throw e) ↔ (q < front)%Q ∨ (back < q)%Q)
  ∧ ((∃ v, operator_call to_string m q = Ret v) ↔ (front <= q)%Q ∧ (q <= back)%Q)
  ∧ (∀ e, operator_call to_string m q = Throw e →
       e = domain_error (err_range to_string q front back)
       ∧ ∃ msg, e = domain_error msg
                ∧ contains msg (to_string q)
                ∧ contains msg (to_string front)
                ∧ contains msg (to_string back))
  ∧ fst (step to_string put m (Evaluate q)) = m.
Proof.
  intros Hrep Hm front back. pose proof (ctor_inv x y m Hrep Hm) as Hc.
  assert ((q < front)%Q ∨ (back < q)%Q →
          operator_call to_string m q
          = Throw (domain_error (err_range to_string q front back))) as Hout.
  { apply (call_outside to_string x y m Hrep Hc). }
  assert ((front <= q)%Q ∧ (q <= back)%Q →
          ∃ v, operator_call to_string m q = Ret v) as Hin.
  { intros [H1 H2]. destruct (Qeq_dec q back) as [E|E].
    - eexists. by apply (call_back to_string x y m Hrep Hc).
    - destruct (call_inside to_string x y m Hrep Hc q) as (i & _ & _ & _ & _ & ->).
      + done.
      + apply Qle_lteq in H2 as [H2|H2]; [done|by destruct E].
      + by eexists. }
  assert ((q < front)%Q ∨ (back < q)%Q ∨ (front <= q)%Q ∧ (q <= back)%Q) as Hcases.
  { destruct (Qlt_le_dec q front); [by left|].
    destruct (Qlt_le_dec back q); [by right; left|by right; right]. }
  split; [|split; [|split]].
  - split; [|intros H; eexists; by apply Hout].
    intros [e He]. destruct Hcases as [H|[H|H]]; [by left|by right|].
    destruct (Hin H) as [v Hv]. congruence.
  - split; [|done].
    intros [v Hv]. destruct Hcases as [H|[H|H]]; [| |done].
    + rewrite Hout in Hv by (by left). done.
    + rewrite Hout in Hv by (by right). done.
  - intros e He. destruct Hcases as [H|[H|H]].
    + rewrite Hout in He by (by left). injection He as <-.
      split; [done|]. eexists. split; [done|]. apply err_range_contains.
    + rewrite Hout in He by (by right). injection He as <-.
      split; [done|]. eexists. split; [done|]. apply err_range_contains.
    + destruct (Hin H) as [v Hv]. congruence.
  - done.
Qed.


(** ** The claims about the constructor *)

(** C5. The constructor throws for unequal lengths, then for fewer than two
    points, then for an adjacent pair out of order, each with its own message,
    and returns an object holding the two sequences for every other input;
    it has no other outcome. *)
Theorem C5_construct_validation (x y : list Q) :
  representable x →
  (length x ≠ length y → makima_ctor x y = Throw (domain_error err_sizes))
  ∧ (length x = length y → (length x < 2)%nat →
       makima_ctor x y = Throw (domain_error err_few))
  ∧ (length x = length y → (2 ≤ length x)%nat →
       (∃ (i : nat) (a b : Q), x !! i = Some a ∧ x !! S i = Some b ∧ (b <= a)%Q) →
       makima_ctor x y = Throw (domain_error err_order))
  ∧ (length x = length y → (2 ≤ length x)%nat → increasing x →
       ∃ m, makima_ctor x y = Ret m ∧ x_ m = x ∧ y_ m = y)
  ∧ ((∃ m, makima_ctor x y = Ret m)
     ∨ (∃ msg, makima_ctor x y = Throw (domain_error msg)
               ∧ (msg = err_sizes ∨ msg = err_few ∨ msg = err_order))).
Proof.
  intros Hrep. split; [|split; [|split; [|split]]].
  - apply ctor_sizes.
  - apply ctor_few.
  - by apply ctor_order.
  - intros Hy H2 Hinc. destruct (ctor_ok x y) as (m & Hm & Hc); [done..|].
    exists m. split; [done|]. split; [apply (c_x _ _ _ Hc)|apply (c_y _ _ _ Hc)].
  - destruct (decide (length x = length y)) as [Hy|Hy].
    + destruct (decide (2 ≤ length x)%nat) as [H2|H2].
      * destruct (order_dichotomy x) as [Hinc|Hbad].
        -- left. destruct (ctor_ok x y) as (m & Hm & _); [done..|]. by exists m.
        -- right. exists err_order. split; [by apply ctor_order|auto].
      * right. exists err_few. split; [apply ctor_few; [done|lia]|auto].
    + right. exists err_sizes. split; [by apply ctor_sizes|auto].
Qed.

(** C7. After a construction the slope stored at an interior node [i],
    [2 <= i < n-2], is the weighted mean of the two central secant slopes of
    the specification, where the weight denominator is not zero. *)
Theorem C7_interior_slope (x y : list Q) (m : makima) (i : nat) :
  representable x → makima_ctor x y = Ret m →
  (2 ≤ i < length x - 2)%nat →
  ¬ (weight x y i == 0)%Q →
  s_ m !! i = Some (akima_slope x y i).
Proof.
  intros Hrep Hm Hi _. pose proof (ctor_inv x y m Hrep Hm) as Hc.
  rewrite (c_interior _ _ _ Hc i Hi). reflexivity.
Qed.

(** A weighted mean with nonnegative weights lies between its two terms. *)
Lemma weighted_slope_between (mim2 mim1 mi mip1 : Q) :
  ¬ (Qabs (mip1 - mi) + Qabs (mim1 - mim2) == 0)%Q →
  (Qmin mim1 mi <= weighted_slope mim2 mim1 mi mip1)%Q
  ∧ (weighted_slope mim2 mim1 mi mip1 <= Qmax mim1 mi)%Q.
Proof.
  intros Hw. unfold weighted_slope. cbv zeta.
  pose proof (Qabs_nonneg (mip1 - mi)) as Ha.
  pose proof (Qabs_nonneg (mim1 - mim2)) as Hb.
  set (a := Qabs (mip1 - mi)) in *. set (b := Qabs (mim1 - mim2)) in *.
  assert (0 < a + b)%Q as Hpos.
  { lra. }
  split.
  - apply Qle_shift_div_l; [done|].
    destruct (Q.min_spec mim1 mi) as [[Hlt ->]|[Hle ->]]; nra.
  - apply Qle_shift_div_r; [done|].
    destruct (Q.max_spec mim1 mi) as [[Hlt ->]|[Hle ->]]; nra.
Qed.

Lemma constructed_slopes_between (x y : list Q) (m : makima) :
  constructed x y m → slopes_between m.
Proof.
  intros Hc i Hi Hw. rewrite (c_x _ _ _ Hc), (c_y _ _ _ Hc) in *.
  eexists. split; [apply (c_interior _ _ _ Hc i Hi)|].
  apply weighted_slope_between.
  unfold weight in Hw. by rewrite Qplus_comm in Hw |- *.
Qed.

(** C8. In every state an object can reach, the slope of an interior node
    whose weight denominator is not zero lies between the two central secant
    slopes. *)
Theorem C8_slope_between_secants (to_string put : Q → string) (m : makima) :
  reachable to_string put m → slopes_between m.
Proof.
  induction 1 as [x y m Hrep Hm|m o _ IH].
  - apply (constructed_slopes_between x y). by apply ctor_inv.
  - by destruct o.
Qed.

(** ** The claims about the interval search and the untouched slopes *)


(** C10. After a construction the bound of the slope loop is [n - 2] (the
    subtraction does not wrap), the slopes of the nodes [0], [1], [n-2] and
    [n-1] are the zero the resize put there, and with at most four nodes the
    whole slope vector is. *)
Theorem C10_untouched_slopes_zero (x y : list Q) (m : makima) :
  representable x → makima_ctor x y = Ret m →
  size_t.sub (size (s_ m)) 2 = size x - 2
  ∧ 0 <= size x - 2
  ∧ length (s_ m) = length x
  ∧ (∀ i : nat, (i < length x)%nat → (i < 2 ∨ length x - 2 ≤ i)%nat →
       s_ m !! i = Some 0%Q)
  ∧ ((length x ≤ 4)%nat →
       s_ m = resize [] (size x) ∧ s_ m = replicate (length x) 0%Q).
Proof.
  intros Hrep Hm. destruct (ctor_inv x y m Hrep Hm) as [Hx Hy Hleny Hlens Htwo Hinc _ Hzero].
  unfold representable, size in *. rewrite Hlens.
  split; [apply size_t_sub_small; lia|]. split; [lia|]. split; [done|].
  split; [done|]. intros H4. rewrite resize_nil.
  enough (s_ m = replicate (length x) 0%Q) by done.
  apply list_eq. intros i. destruct (decide (i < length x)%nat) as [Hi|Hi].
  - rewrite Hzero by lia. symmetry. by apply lookup_replicate_2.
  - rewrite (proj2 (lookup_ge_None _ _)) by lia.
    symmetry. apply lookup_ge_None. rewrite length_replicate. lia.
Qed.

(** ** The theorems at concrete samples *)

Lemma C4_out_of_domain_witness :
  representable xs5 ∧ makima_ctor xs5 ys5 = Ret m5
  ∧ ∃ e, operator_call show_Q m5 5 = Throw e.
Proof.
  assert (representable xs5) as H1 by reflexivity.
  assert (makima_ctor xs5 ys5 = Ret m5) as H2 by (vm_compute; reflexivity).
  split; [exact H1|]. split; [exact H2|].
  apply (C4_out_of_domain show_Q show_Q xs5 ys5 m5 5 H1 H2).
  right. vm_compute. reflexivity.
Defined.

Lemma C5_construct_validation_witness :
  representable [1; 2; 2; 3]%Q
  ∧ makima_ctor [1; 2; 2; 3]%Q [1; 2; 2; 3]%Q = Throw (domain_error err_order).
Proof.
  assert (representable [1; 2; 2; 3]%Q) as H1 by reflexivity.
  split; [exact H1|].
  apply (C5_construct_validation [1; 2; 2; 3]%Q [1; 2; 2; 3]%Q H1).
  - reflexivity.
  - simpl. lia.
  - exists 1%nat, 2%Q, 2%Q. split; [reflexivity|]. split; [reflexivity|].
    unfold Qle. simpl. lia.
Defined.


Lemma C7_interior_slope_witness :
  representable xs5 ∧ makima_ctor xs5 ys5 = Ret m5
  ∧ ¬ (weight xs5 ys5 2 == 0)%Q
  ∧ s_ m5 !! 2%nat = Some (akima_slope xs5 ys5 2).
Proof.
  assert (representable xs5) as H1 by reflexivity.
  assert (makima_ctor xs5 ys5 = Ret m5) as H2 by (vm_compute; reflexivity).
  assert (¬ (weight xs5 ys5 2 == 0)%Q) as H3 by (vm_compute; lia).
  split; [exact H1|]. split; [exact H2|]. split; [exact H3|].
  apply (C7_interior_slope xs5 ys5 m5 2 H1 H2); [simpl; lia|exact H3].
Defined.

Lemma C8_slope_between_secants_witness :
  reachable show_Q show_Q (fst (step show_Q show_Q m5 (Evaluate 2)))
  ∧ slopes_between (fst (step show_Q show_Q m5 (Evaluate 2))).
Proof.
  assert (reachable show_Q show_Q (fst (step show_Q show_Q m5 (Evaluate 2)))) as H1.
  { apply reach_step. apply (reach_new show_Q show_Q xs5 ys5).
    - reflexivity.
    - vm_compute. reflexivity. }
  split; [exact H1|].
  apply (C8_slope_between_secants show_Q show_Q _ H1).
Defined.


Lemma C10_untouched_slopes_zero_witness :
  representable [0; 1; 2]%Q
  ∧ makima_ctor [0; 1; 2]%Q [0; 1; 0]%Q = Ret (Build_makima [0; 1; 2]%Q [0; 1; 0]%Q [0; 0; 0]%Q)
  ∧ s_ (Build_makima [0; 1; 2]%Q [0; 1; 0]%Q [0; 0; 0]%Q) !! 1%nat = Some 0%Q.
Proof.
  assert (representable [0; 1; 2]%Q) as H1 by reflexivity.
  assert (makima_ctor [0; 1; 2]%Q [0; 1; 0]%Q
          = Ret (Build_makima [0; 1; 2]%Q [0; 1; 0]%Q [0; 0; 0]%Q)) as H2
    by (vm_compute; reflexivity).
  split; [exact H1|]. split; [exact H2|].
  apply (C10_untouched_slopes_zero _ _ _ H1 H2); simpl; lia.
Defined.

(** ** Further properties: the guards of the call operator *)

(** Strictly inside the range the call operator is its general path. *)
Lemma operator_call_general (to_string : Q → string) (x y : list Q) (m : makima) (q : Q) :
  representable x → constructed x y m →
  (x !!! 0%nat <= q)%Q → (q < x !!! (length x - 1)%nat)%Q →
  operator_call to_string m q = general_path m q.
Proof.
  intros Hrep Hc H1 H2. unfold operator_call.
  rewrite (outside_spec x y m Hrep Hc). run.
  rewrite call_not_outside by (done || lra).
  rewrite (back_index x y m Hrep Hc). run.
  assert (Qeq_bool q (x !!! (length x - 1)%nat) = false) as ->; [|reflexivity].
  apply not_true_iff_false. intros E. apply Qeq_bool_iff in E. lra.
Qed.

(** Where the search ends outside the range. *)
Lemma upper_bound_ends (x : list Q) (q : Q) :
  increasing x → (2 ≤ length x)%nat →
  ((q < x !!! 0%nat)%Q → upper_bound x q = Ret 0)
  ∧ ((x !!! (length x - 1)%nat <= q)%Q → upper_bound x q = Ret (size x)).
Proof.
  intros Hinc H2.
  destruct (upper_bound_spec x q Hinc) as (r & Hr & Hrange & Hl & Hrr).
  unfold size in *. split; intros Hq; rewrite Hr; f_equal.
  - destruct (decide (r = 0)) as [|Hne]; [done|exfalso].
    assert (x !!! 0%nat <= q)%Q; [|lra].
    apply (Hl 0%nat); [lia|]. apply list_lookup_lookup_total_lt. lia.
  - destruct (decide (r = Z.of_nat (length x))) as [|Hne]; [done|exfalso].
    assert (q < x !!! (length x - 1)%nat)%Q; [|lra].
    apply (Hrr (length x - 1)%nat); [lia|]. apply list_lookup_lookup_total_lt. lia.
Qed.

(** X1. On an object constructed from strictly increasing abscissas the
    general path of the call operator (search, reads, cubic) reads outside
    the abscissas for every query below the first one and for every query at
    or above the last one; from the first abscissa up to, and not including,
    the last one the call operator is that path, and it returns a value. *)
Theorem X1_general_path_outside_the_range (to_string : Q → string) (x y : list Q)
    (m : makima) (q : Q) :
  representable x → makima_ctor x y = Ret m → increasing x →
  let front := x !!! 0%nat in
  let back := x !!! (length x - 1)%nat in
  ((q < front)%Q → general_path m q = Undefined)
  ∧ ((back <= q)%Q → general_path m q = Undefined)
  ∧ ((front <= q)%Q → (q < back)%Q →
       operator_call to_string m q = general_path m q
       ∧ ∃ v, general_path m q = Ret v).
Proof.
  intros Hrep Hm Hinc front back. pose proof (ctor_inv x y m Hrep Hm) as Hc.
  pose proof (c_x _ _ _ Hc) as Hx. pose proof (c_two _ _ _ Hc) as Htwo.
  destruct (upper_bound_ends x q Hinc Htwo) as [Hlow Hhigh].
  split; [|split].
  - intros Hq. unfold general_path. rewrite Hx, (Hlow Hq). run. done.
  - intros Hq. unfold general_path. rewrite Hx, (Hhigh Hq). run. unfold size.
    replace (Z.of_nat (length x) - 1) with (Z.of_nat (length x - 1)) by lia.
    rewrite (index_total x (length x - 1)) by lia. run.
    assert (index x (Z.of_nat (length x)) = Undefined) as ->; [|reflexivity].
    unfold index. destruct (decide _); [|done].
    rewrite Nat2Z.id. by rewrite (proj2 (lookup_ge_None x (length x))).
  - intros H1 H2.
    pose proof (operator_call_general to_string x y m q Hrep Hc H1 H2) as E.
    split; [done|]. rewrite <- E.
    destruct (call_inside to_string x y m Hrep Hc q H1 H2) as (i & _ & _ & _ & _ & ->).
    by eexists.
Qed.

(** ** Further properties: the stream insertion *)

Lemma triple_ok (put : Q → string) (m : makima) (i : nat) :
  (i < length (x_ m))%nat → length (y_ m) = length (x_ m) →
  length (s_ m) = length (x_ m) →
  triple put m (Z.of_nat i) = Ret (row put m i).
Proof.
  intros Hi Hy Hs. unfold triple, row.
  rewrite (index_total (x_ m) i), (index_total (y_ m) i), (index_total (s_ m) i) by lia.
  done.
Qed.

(** X2. The stream insertion of a constructed object finishes without
    reading out of bounds and appends, to what the stream holds, the opening
    text, the samples [(x, y, slope)] in order, each but the last followed by
    [",  "], and the closing brace. *)
Theorem X2_stream_insertion (put : Q → string) (os : string) (x y : list Q) (m : makima) :
  representable x → makima_ctor x y = Ret m →
  operator_shl put os m = Ret (formatted put os m).
Proof.
  intros Hrep Hm. destruct (ctor_inv x y m Hrep Hm) as [Hx Hy Hleny Hlens Htwo _ _ _].
  assert (length (y_ m) = length (x_ m)) as Hly by (rewrite Hx, Hy; done).
  assert (length (s_ m) = length (x_ m)) as Hls by (rewrite Hx; done).
  assert (representable (x_ m)) as Hrep' by (by rewrite Hx).
  assert (2 ≤ length (x_ m))%nat as H2 by (by rewrite Hx).
  clear Hx Hy Hleny Hlens Htwo Hrep Hm. unfold representable, size in Hrep'.
  unfold operator_shl, formatted. cbv zeta. unfold size.
  rewrite size_t_sub_small by lia.
  set (n1 := (length (x_ m) - 1)%nat).
  replace (Z.of_nat (length (x_ m)) - 1) with (Z.of_nat n1) by (subst n1; lia).
  set (body := fun (i : Z) (os0 : string) =>
                 t ← triple put m i; Ret (os0 ++ t ++ "),  ")%string).
  destruct (for_loop_rule body (Z.of_nat n1)
              (fun i acc => acc = ((os ++ "(x,y,y') = {") ++ rows put m (Z.to_nat i))%string))
    with (fuel := Z.to_nat (Z.of_nat n1)) (i := 0) (s := (os ++ "(x,y,y') = {")%string)
    as (acc & Hacc & Hinv).
  - subst n1. lia.
  - intros i acc Hi ->. subst body. cbv beta.
    assert (triple put m i = Ret (row put m (Z.to_nat i))) as ->.
    { rewrite <- (Z2Nat.id i) at 1 by lia. apply triple_ok; [subst n1; lia|done..]. }
    run. eexists. split; [done|].
    replace (Z.to_nat (i + 1)) with (S (Z.to_nat i)) by lia.
    cbn [rows]. by rewrite string_append_assoc.
  - lia.
  - lia.
  - simpl. clear. induction (os ++ "(x,y,y') = {")%string as [|c s' IH]; simpl; [done|].
    by rewrite <- IH.
  - rewrite Hacc. run.
    rewrite triple_ok by (done || subst n1; lia). run.
    rewrite Hinv. rewrite Z.max_r by lia. rewrite Nat2Z.id.
    f_equal. by rewrite !string_append_assoc.
Qed.

(** ** Further properties: the invariants of the object *)

(** X3. In every state an object can reach the three containers have the
    same length, there are at least two samples, no adjacent pair of
    abscissas passes the constructor's test [x[i] <= x[i-1]], and the number
    of samples fits [size_t]. *)
Theorem X3_class_invariant (to_string put : Q → string) (m : makima) :
  reachable to_string put m → class_invariant m.
Proof.
  induction 1 as [x y m Hrep Hm|m o _ IH].
  - destruct (ctor_inv x y m Hrep Hm) as [Hx Hy Hleny Hlens Htwo Hinc _ _].
    unfold class_invariant. rewrite Hx, Hy. repeat split; try done.
    intros i a b Ha Hb. apply not_true_iff_false. intros E.
    apply Qle_bool_iff in E. specialize (Hinc i a b Ha Hb). lra.
  - by destruct o.
Qed.

(** ** Further properties: locality *)

Lemma total_of_lookup (c : list Q) (i : nat) (v : Q) :
  c !! i = Some v → c !!! i = v.
Proof. intros H. by apply list_lookup_total_correct. Qed.

Lemma total_agree (c c' : list Q) (j : nat) :
  c !! j = c' !! j → c !!! j = c' !!! j.
Proof. intros H. by rewrite !list_lookup_total_alt, H. Qed.

Lemma secant_slope_agree (x y y' : list Q) (k : nat) :
  y !! k = y' !! k → y !! S k = y' !! S k →
  secant_slope x y k = secant_slope x y' k.
Proof.
  intros H0 H1. unfold secant_slope.
  by rewrite (total_agree y y' k H0), (total_agree y y' (S k) H1).
Qed.

(** The slope of a node is computed from the five samples around it. *)
Lemma slope_agree (x y y' : list Q) (m m' : makima) (k : nat) :
  constructed x y m → constructed x y' m' → (k < length x)%nat →
  (∀ j : nat, (k - 2 ≤ j ≤ k + 2)%nat → y !! j = y' !! j) →
  s_ m !!! k = s_ m' !!! k.
Proof.
  intros Hc Hc' Hk Hwin.
  destruct (decide (2 ≤ k < length x - 2)%nat) as [Hin|Hout].
  - rewrite (total_of_lookup _ _ _ (c_interior _ _ _ Hc k Hin)).
    rewrite (total_of_lookup _ _ _ (c_interior _ _ _ Hc' k Hin)).
    rewrite (secant_slope_agree x y y' (k - 2)), (secant_slope_agree x y y' (k - 1)),
      (secant_slope_agree x y y' k), (secant_slope_agree x y y' (k + 1));
      [done|apply Hwin; lia..].
  - assert (k < 2 ∨ length x - 2 ≤ k)%nat as Hend by lia.
    rewrite (total_of_lookup _ _ _ (c_boundary _ _ _ Hc k Hk Hend)).
    by rewrite (total_of_lookup _ _ _ (c_boundary _ _ _ Hc' k Hk Hend)).
Qed.

(** X7. On strictly increasing abscissas the value of the call operator on
    the segment that starts at node [i] depends on the ordinates of the nodes
    [i-2 .. i+3] only: two objects built on the same abscissas from ordinates
    that agree there return the same outcome for every query of that
    segment. *)
Theorem X7_locality (to_string : Q → string) (x y y' : list Q) (m m' : makima)
    (i : nat) (q : Q) :
  representable x → makima_ctor x y = Ret m → makima_ctor x y' = Ret m' →
  increasing x →
  (S i < length x)%nat →
  (∀ j : nat, (i - 2 ≤ j ≤ i + 3)%nat → y !! j = y' !! j) →
  (x !!! i <= q)%Q → (q < x !!! S i)%Q →
  operator_call to_string m q = operator_call to_string m' q.
Proof.
  intros Hrep Hm Hm' _ Hi Hwin Hlo Hhi.
  pose proof (ctor_inv x y m Hrep Hm) as Hc.
  pose proof (ctor_inv x y' m' Hrep Hm') as Hc'.
  rewrite (call_on_segment to_string x y m i q Hrep Hc Hi Hlo Hhi).
  rewrite (call_on_segment to_string x y' m' i q Hrep Hc' Hi Hlo Hhi).
  f_equal. unfold segment_cubic.
  rewrite (c_x _ _ _ Hc), (c_x _ _ _ Hc'), (c_y _ _ _ Hc), (c_y _ _ _ Hc').
  rewrite (total_agree y y' i), (total_agree y y' (S i)) by (apply Hwin; lia).
  rewrite (slope_agree x y y' m m' i Hc Hc'), (slope_agree x y y' m m' (S i) Hc Hc');
    [done|lia|intros j Hj; apply Hwin; lia|lia|intros j Hj; apply Hwin; lia].
Qed.

(** ** The code in binary64 *)

Lemma increasingb_spec (x : list Q) : increasingb x = true → increasing x.
Proof.
  induction x as [|a [|b x] IH]; intros H i p q Hp Hq.
  - done.
  - by destruct i.
  - cbn [increasingb] in H. apply andb_true_iff in H as [Hab Hrest].
    destruct i as [|i].
    + simpl in Hp, Hq. injection Hp as <-. injection Hq as <-. by apply Qltb_lt.
    + by apply (IH Hrest i).
Qed.

(** A comparison with a value that is not a number is false. *)
Lemma f64_ltb_nan_l (a : float) : PrimFloat.ltb nan a = false.
Proof. rewrite FloatAxioms.ltb_spec. reflexivity. Qed.

Lemma f64_ltb_nan_r (a : float) : PrimFloat.ltb a nan = false.
Proof.
  rewrite FloatAxioms.ltb_spec. unfold SFltb, SFcompare.
  change (Prim2SF nan) with S754_nan. by destruct (Prim2SF a).
Qed.

Lemma f64_eqb_nan_l (a : float) : PrimFloat.eqb nan a = false.
Proof. rewrite FloatAxioms.eqb_spec. reflexivity. Qed.

Lemma f64_index_lookup (c : list float) (i : nat) (v : float) :
  c !! i = Some v → F64.index c (Z.of_nat i) = Ret v.
Proof.
  intros H. unfold F64.index. destruct (decide (0 <= Z.of_nat i)); [|lia].
  by rewrite Nat2Z.id, H.
Qed.

Lemma f64_index_in_range (c : list float) (i : Z) :
  0 <= i < F64.size c → ∃ v, F64.index c i = Ret v.
Proof.
  unfold F64.size. intros H.
  destruct (lookup_lt_is_Some_2 c (Z.to_nat i)) as [v Hv]; [lia|].
  exists v. unfold F64.index. destruct (decide _); [|lia]. by rewrite Hv.
Qed.

Lemma f64_index_end (c : list float) : F64.index c (F64.size c) = Undefined.
Proof.
  unfold F64.index, F64.size. destruct (decide _); [|done].
  rewrite Nat2Z.id. by rewrite (proj2 (lookup_ge_None c (length c))).
Qed.

(** No element is greater than a query that is not a number: the bisection
    moves right at every step and ends at the end of its range. *)
Lemma f64_upper_bound_loop_nan (c : list float) (first len : Z) :
  0 <= first → 0 <= len → first + len <= F64.size c →
  F64.upper_bound_loop c nan first len = Ret (first + len).
Proof.
  funelim (F64.upper_bound_loop c nan first len); intros Hfirst Hlen Hsize.
  all: try (pose proof (shiftr_1_bounds len ltac:(done)) as Hhalf;
            destruct (f64_index_in_range c (first + Z.shiftr len 1)) as [v Hv]; [lia|]).
  all: try congruence.
  - f_equal. lia.
  - match goal with HQ : PrimFloat.ltb nan _ = true |- _ =>
      rewrite f64_ltb_nan_l in HQ; discriminate HQ end.
  - match goal with IH : _ → _ → _ → _ = Ret _ |- _ => rewrite IH by lia end.
    f_equal. lia.
Qed.

(** What the constructor returns holds the two sequences it was given, of
    equal length at least two. *)
Lemma f64_ctor_Ret (x y : list float) (m : F64.makima) :
  F64.makima_ctor x y = Ret m →
  F64.x_ m = x ∧ F64.y_ m = y ∧ F64.size y = F64.size x ∧ 2 <= F64.size x.
Proof.
  unfold F64.makima_ctor.
  destruct (F64.size x =? F64.size y) eqn:E1; [|done].
  destruct (F64.size x <? 2) eqn:E2; [done|]. cbn [negb].
  destruct (F64.index x 0); [|done..]. run.
  destruct (for_loop _ 1 _ _ _); [|done..]. run. cbv zeta.
  destruct (for_loop _ 2 _ _ _); [|done..]. run.
  intros [= <-]. cbn [F64.x_ F64.y_]. repeat split; lia.
Qed.

(** C8, in binary64.  On [x = 0, 3, 6, 9, 12], [y = 0, 3, 4, 5, 0] the
    construction succeeds, the weight denominator of node [2] is not zero,
    and the slope stored at node [2] is less than both central secant
    slopes: it does not lie between them. *)
Lemma C8_binary64_counterexample :
  ∃ (m : F64.makima) (mim2 mim1 mi mip1 s : float),
    F64.makima_ctor xs_thirds ys_thirds = Ret m
    ∧ F64.secant xs_thirds ys_thirds 1 0 = Ret mim2
    ∧ F64.secant xs_thirds ys_thirds 2 1 = Ret mim1
    ∧ F64.secant xs_thirds ys_thirds 3 2 = Ret mi
    ∧ F64.secant xs_thirds ys_thirds 4 3 = Ret mip1
    ∧ PrimFloat.eqb (abs (mip1 - mi) + abs (mim1 - mim2)) 0 = false
    ∧ F64.index (F64.s_ m) 2 = Ret s
    ∧ PrimFloat.ltb s mim1 = true
    ∧ PrimFloat.ltb s mi = true.
Proof.
  do 6 eexists. repeat split; vm_compute; reflexivity.
Qed.


(** X10. In binary64 a query that is not a number passes the domain check of
    every constructed object (both comparisons are false), is not equal to
    the last abscissa, sends the search to the end of the abscissas, and the
    read of [*it] on line 69 is out of bounds. *)
Theorem X10_nan_query_reads_past_the_end (to_string : float → string)
    (x y : list float) (m : F64.makima) :
  F64.size x < size_t.modulus → F64.makima_ctor x y = Ret m →
  F64.outside m nan = Ret false
  ∧ F64.upper_bound (F64.x_ m) nan = Ret (F64.size (F64.x_ m))
  ∧ F64.operator_call to_string m nan = Undefined.
Proof.
  intros Hrep Hm. destruct (f64_ctor_Ret x y m Hm) as (Hx & Hy & Hlen & Htwo).
  rewrite Hx. unfold F64.size in *.
  destruct (lookup_lt_is_Some_2 x 0) as [a Ha]; [lia|].
  destruct (lookup_lt_is_Some_2 x (length x - 1)) as [b Hb]; [lia|].
  assert (F64.index x 0 = Ret a) as E0 by apply (f64_index_lookup x 0 a Ha).
  assert (F64.index x (size_t.sub (Z.of_nat (length x)) 1) = Ret b) as Eb.
  { rewrite size_t_sub_small by lia.
    replace (Z.of_nat (length x) - 1) with (Z.of_nat (length x - 1)) by lia.
    by apply f64_index_lookup. }
  assert (F64.outside m nan = Ret false) as Eout.
  { unfold F64.outside, F64.size. rewrite Hx, E0. run.
    rewrite f64_ltb_nan_l, Eb. run. by rewrite f64_ltb_nan_r. }
  assert (F64.upper_bound x nan = Ret (Z.of_nat (length x))) as Eub.
  { unfold F64.upper_bound. rewrite f64_upper_bound_loop_nan by (unfold F64.size; lia).
    reflexivity. }
  split; [done|]. split; [done|].
  unfold F64.operator_call. rewrite Eout. run.
  unfold F64.size. rewrite Hx, Eb. run. rewrite f64_eqb_nan_l, Eub. run.
  replace (Z.of_nat (length x) - 1) with (Z.of_nat (length x - 1)) by lia.
  rewrite (f64_index_lookup x _ b Hb). run.
  by rewrite (f64_index_end x : F64.index x (Z.of_nat (length x)) = Undefined).
Qed.

(** ** The further properties at concrete samples *)

Lemma X1_general_path_outside_the_range_witness :
  representable xs5 ∧ makima_ctor xs5 ys5 = Ret m5 ∧ increasing xs5
  ∧ general_path m5 4 = Undefined.
Proof.
  assert (representable xs5) as H1 by reflexivity.
  assert (makima_ctor xs5 ys5 = Ret m5) as H2 by (vm_compute; reflexivity).
  assert (increasing xs5) as H3 by (apply increasingb_spec; vm_compute; reflexivity).
  split; [exact H1|]. split; [exact H2|]. split; [exact H3|].
  apply (X1_general_path_outside_the_range show_Q xs5 ys5 m5 4 H1 H2 H3).
  vm_compute. discriminate.
Defined.

Lemma X2_stream_insertion_witness :
  representable xs5 ∧ makima_ctor xs5 ys5 = Ret m5
  ∧ operator_shl show_Q "" m5 = Ret (formatted show_Q "" m5).
Proof.
  assert (representable xs5) as H1 by reflexivity.
  assert (makima_ctor xs5 ys5 = Ret m5) as H2 by (vm_compute; reflexivity).
  split; [exact H1|]. split; [exact H2|].
  apply (X2_stream_insertion show_Q "" xs5 ys5 m5 H1 H2).
Defined.

Lemma X3_class_invariant_witness :
  reachable show_Q show_Q (fst (step show_Q show_Q m5 (Format "")))
  ∧ class_invariant (fst (step show_Q show_Q m5 (Format ""))).
Proof.
  assert (reachable show_Q show_Q (fst (step show_Q show_Q m5 (Format "")))) as H1.
  { apply reach_step. apply (reach_new show_Q show_Q xs5 ys5).
    - reflexivity.
    - vm_compute. reflexivity. }
  split; [exact H1|].
  apply (X3_class_invariant show_Q show_Q _ H1).
Defined.

Lemma X7_locality_witness :
  ∃ m m' : makima,
    representable xs8 ∧ increasing xs8
    ∧ makima_ctor xs8 ys8 = Ret m ∧ makima_ctor xs8 ys8' = Ret m'
    ∧ s_ m !! 2%nat = Some (akima_slope xs8 ys8 2)
    ∧ s_ m !! 5%nat ≠ s_ m' !! 5%nat
    ∧ operator_call show_Q m (5 # 2) = operator_call show_Q m' (5 # 2).
Proof.
  assert (representable xs8) as H1 by reflexivity.
  assert (increasing xs8) as H2 by (apply increasingb_spec; vm_compute; reflexivity).
  do 2 eexists.
  split; [exact H1|]. split; [exact H2|].
  split; [vm_compute; reflexivity|]. split; [vm_compute; reflexivity|].
  split; [vm_compute; reflexivity|]. split; [vm_compute; discriminate|].
  eapply (X7_locality show_Q xs8 ys8 ys8' _ _ 2 (5 # 2) H1).
  - vm_compute. reflexivity.
  - vm_compute. reflexivity.
  - exact H2.
  - simpl. lia.
  - intros j Hj. simpl in Hj.
    destruct j as [|[|[|[|[|[|j]]]]]]; [reflexivity..|lia].
  - vm_compute. discriminate.
  - vm_compute. reflexivity.
Defined.

Lemma X10_nan_query_reads_past_the_end_witness :
  ∃ m : F64.makima,
    F64.size xs_tiny < size_t.modulus
    ∧ F64.makima_ctor xs_tiny ys_tiny = Ret m
    ∧ F64.operator_call (fun _ => ""%string) m nan = Undefined.
Proof.
  assert (F64.size xs_tiny < size_t.modulus) as H1 by reflexivity.
  eexists. split; [exact H1|]. split; [vm_compute; reflexivity|].
  eapply (X10_nan_query_reads_past_the_end _ xs_tiny ys_tiny _ H1).
  vm_compute. reflexivity.
Defined.
